(** * ters_gc: the register-flushing primitive [flush_registers_and_call]

    The C source ([src/reg_flush_impl.c]) is one function:
<<
    typedef void ( *callback_func)(void * );

    void flush_registers_and_call(callback_func callback, void *data) {
      jmp_buf env;
      memset(&env, 0, sizeof(jmp_buf));
      setjmp(env);

      callback(data);
    }
>>
    It is embedded below as a computation in a small trace-and-state monad
    over an abstract machine: the registers [setjmp] reads, a stack pointer,
    a byte-addressed memory and the allocator's list of heap blocks.  The
    platform ([sizeof(jmp_buf)], what [setjmp] stores, the width of a
    pointer) is a parameter. *)

From stdpp Require Import base option list gmap.
From Stdlib Require Import ZArith Lia.

Local Open Scope Z_scope.

(** ** The abstract machine *)

(** What the C library of the target fixes and the source leaves open. *)
Class platform := Platform {
  (** [sizeof(void * )], in bytes *)
  word_size : nat;
  (** [sizeof(jmp_buf)], in bytes *)
  sizeof_jmp_buf : nat;
  (** the bytes [setjmp] stores from the start of its buffer, as a function
      of the registers at the moment of the call *)
  setjmp_image : list Z → list Z;
  (** the [int] a direct invocation of [setjmp] returns *)
  setjmp_value : Z
}.

Record machine := Machine {
  (** the registers [setjmp] reads (those a call preserves), by register
      number; [memset] is a call and leaves them as they are *)
  regs : list Z;
  (** stack pointer; the stack grows towards lower addresses *)
  sp : Z;
  (** memory, byte by byte; an address without a binding holds an
      indeterminate value *)
  mem : gmap Z Z;
  (** blocks handed out by the allocator: address and size *)
  heap_blocks : list (Z * nat)
}.

Definition set_sp (a : Z) (m : machine) : machine :=
  {| regs := regs m; sp := a; mem := mem m; heap_blocks := heap_blocks m |}.

Definition set_mem (μ : gmap Z Z) (m : machine) : machine :=
  {| regs := regs m; sp := sp m; mem := μ; heap_blocks := heap_blocks m |}.

(** Observable steps of an execution, in program order. *)
Inductive event :=
| EvReserve (a : Z) (n : nat)       (* an automatic object of n bytes at a *)
| EvRelease (a : Z) (n : nat)       (* its lifetime ends *)
| EvMemset (s c : Z) (n : nat)      (* memset(s, c, n) *)
| EvSetjmp (env : Z)                (* setjmp(env) *)
| EvLongjmp (env : Z)               (* longjmp(env, _) *)
| EvLoad (a : Z) (n : nat)          (* n bytes read from a *)
| EvCall (arg : Z)                  (* call through a function pointer *)
| EvRet.                            (* that call returns *)

(** A computation emits events and either returns a value and a machine or
    never returns to its caller ([None]: it diverges, aborts or leaves by a
    non-local jump). *)
Definition M (A : Type) : Type := machine → list event * option (A * machine).

Global Instance M_ret : MRet M := λ A x m, ([], Some (x, m)).

Global Instance M_bind : MBind M := λ A B k c m,
  match c m with
  | (t1, Some (x, m1)) => let '(t2, r) := k x m1 in (t1 ++ t2, r)
  | (t1, None) => (t1, None)
  end.

(** [void * ] is an address; the null pointer is address 0. *)
Definition NULL : Z := 0.

(** [typedef void ( *callback_func)(void * );] *)
Definition callback_func : Type := Z → M unit.

(** ** Memory *)

Fixpoint store_bytes (a : Z) (bs : list Z) (μ : gmap Z Z) : gmap Z Z :=
  match bs with
  | [] => μ
  | b :: bs' => <[a := b]> (store_bytes (a + 1) bs' μ)
  end.

Definition load_bytes (μ : gmap Z Z) (a : Z) (n : nat) : list (option Z) :=
  map (λ i : nat, μ !! (a + Z.of_nat i)) (seq 0 n).

(** A [w]-byte value in memory order (least significant byte first; the
    scan reads words in the same order the registers were stored in). *)
Definition encode_word (w : nat) (v : Z) : list Z :=
  map (λ i : nat, Z.land (Z.shiftr v (8 * Z.of_nat i)) 255) (seq 0 w).

Definition word_at (μ : gmap Z Z) (a : Z) (w : nat) (v : Z) : bool :=
  bool_decide (load_bytes μ a w = map Some (encode_word w v)).

(** A conservative scan of the byte range [[lo, hi)] for the value [v]:
    every start address at which a whole word still fits is tried. *)
Definition stack_scan (μ : gmap Z Z) (lo hi : Z) (w : nat) (v : Z) : bool :=
  existsb (λ a, word_at μ a w v) (seqZ lo (hi - lo - Z.of_nat w + 1)).

(** ** The C library and the calling sequence *)

Section Primitives.
Context {P : platform}.

(** [memset(s, c, n)]: [n] bytes from [s] become [(unsigned char)c];
    returns [s]. *)
Definition memset (s c : Z) (n : nat) : M Z := λ m,
  ([EvMemset s c n],
   Some (s, set_mem (store_bytes s (replicate n (Z.land c 255)) (mem m)) m)).

(** [setjmp(env)], invoked directly: stores the platform's image of the
    registers at [env] and returns [setjmp_value]. *)
Definition setjmp (env : Z) : M Z := λ m,
  ([EvSetjmp env],
   Some (setjmp_value,
         set_mem (store_bytes env (setjmp_image (regs m)) (mem m)) m)).

(** [longjmp(env, _)] never returns to its caller.  The source has no
    call of it; it is here for callbacks, which may leave by a jump to a
    context saved further up the stack.  The context that
    [flush_registers_and_call] saves is in its own frame and its address
    is given to nobody. *)
Definition longjmp (env : Z) : M unit := λ m, ([EvLongjmp env], None).

(** [abort()] *)
Definition abort : M unit := λ m, ([], None).

(** An automatic object of [n] bytes: reserved below the stack pointer
    when the function is entered, released when it returns, at which
    point the caller's stack pointer is back in place. *)
Definition auto_var {A} (n : nat) (body : Z → M A) : M A := λ m,
  let a := sp m - Z.of_nat n in
  match body a (set_sp a m) with
  | (t, Some (x, m')) =>
      (EvReserve a n :: t ++ [EvRelease a n], Some (x, set_sp (sp m) m'))
  | (t, None) => (EvReserve a n :: t, None)
  end.

(** [f(arg)] through the function pointer [f]. *)
Definition call (f : callback_func) (arg : Z) : M unit := λ m,
  match f arg m with
  | (t, Some (_, m')) => (EvCall arg :: t ++ [EvRet], Some (tt, m'))
  | (t, None) => (EvCall arg :: t, None)
  end.

(** ** The source function *)

Definition flush_registers_and_call
    (callback : callback_func) (data : Z) : M unit :=
  auto_var sizeof_jmp_buf (λ env,
    _ ← memset env 0 sizeof_jmp_buf;
    _ ← setjmp env;
    call callback data).

(** The machine in which the callback is entered: the frame is reserved
    and [memset] and [setjmp] have run on the buffer. *)
Definition callback_entry (m : machine) : machine :=
  let env := sp m - Z.of_nat sizeof_jmp_buf in
  match (_ ← memset env 0 sizeof_jmp_buf; setjmp env) (set_sp env m) with
  | (_, Some (_, m1)) => m1
  | (_, None) => m
  end.

End Primitives.

(** ** Reading a trace *)

(** The arguments of the calls made at nesting depth [k], reading the trace
    from depth [j]: [EvCall] opens a level, [EvRet] closes one. *)
Fixpoint calls_at (k j : nat) (t : list event) : list Z :=
  match t with
  | [] => []
  | EvCall a :: t' => (if bool_decide (j = k) then [a] else []) ++ calls_at k (S j) t'
  | EvRet :: t' => calls_at k (pred j) t'
  | _ :: t' => calls_at k j t'
  end.

(** A trace that, read from depth [j], never returns past depth 0: what a
    callee emits, read from its own level. *)
Fixpoint scoped_from (j : nat) (t : list event) : bool :=
  match t with
  | [] => true
  | EvCall _ :: t' => scoped_from (S j) t'
  | EvRet :: t' => match j with O => false | S j' => scoped_from j' t' end
  | _ :: t' => scoped_from j t'
  end.

Fixpoint depth_after (j : nat) (t : list event) : nat :=
  match t with
  | [] => j
  | EvCall _ :: t' => depth_after (S j) t'
  | EvRet :: t' => depth_after (pred j) t'
  | _ :: t' => depth_after j t'
  end.

Definition is_call (e : event) : bool :=
  match e with EvCall _ => true | _ => false end.

(** A callee whose trace is scoped whatever it is given. *)
Definition scoped (c : callback_func) : Prop :=
  ∀ d m, scoped_from 0 (c d m).1 = true.

(** The event is a non-local jump or a read of memory. *)
Definition jumps_or_reads (e : event) : bool :=
  match e with
  | EvLongjmp _ | EvLoad _ _ => true
  | _ => false
  end.

(** ** Properties of a platform *)

Definition reg_value (rf : list Z) (r : nat) : Z := default 0 (rf !! r).

(** [setjmp] stores register [r] as it is, [off] bytes into the buffer. *)
Definition captures (P : platform) (r off : nat) : Prop :=
  ∀ rf, (off + word_size ≤ length (setjmp_image rf))%nat
        ∧ take word_size (drop off (setjmp_image rf))
          = encode_word word_size (reg_value rf r).

(** [setjmp] stays inside a [jmp_buf]. *)
Definition setjmp_in_bounds (P : platform) : Prop :=
  ∀ rf, (length (setjmp_image rf) ≤ sizeof_jmp_buf)%nat.

Definition with_setjmp_value (v : Z) (P : platform) : platform :=
  {| word_size := word_size; sizeof_jmp_buf := sizeof_jmp_buf;
     setjmp_image := setjmp_image; setjmp_value := v |}.

(** ** Callers and callbacks *)

Section Clients.
Context {P : platform}.

(** A callback that does nothing. *)
Definition idle : callback_func := λ _, mret tt.

(** A callback that asserts it was given [v]. *)
Definition expect (v : Z) : callback_func := λ d,
  if bool_decide (d = v) then mret tt else abort.

(** A callback that adds one to the byte its argument points at. *)
Definition bump : callback_func := λ d m,
  match mem m !! d with
  | Some b => ([EvLoad d 1], Some (tt, set_mem (<[d := Z.land (b + 1) 255]> (mem m)) m))
  | None => ([EvLoad d 1], None)
  end.

(** A callback that scans its stack, from its own stack pointer up to the
    base its argument gives, for the value [v], and aborts when the value
    is not there. *)
Definition scan_for (v : Z) : callback_func := λ base m,
  ([EvLoad (sp m) (Z.to_nat (base - sp m))],
   if stack_scan (mem m) (sp m) base word_size v then Some (tt, m) else None).

(** A callback that leaves by a jump to the context its argument points
    at. *)
Definition escape : callback_func := λ d, longjmp d.

(** A callback that calls [flush_registers_and_call] itself. *)
Definition nested (inner : callback_func) (d2 : Z) : callback_func :=
  λ _, flush_registers_and_call inner d2.

(** A caller that makes the calls of a list one after the other. *)
Fixpoint invoke_all (calls : list (callback_func * Z)) : M unit :=
  match calls with
  | [] => mret tt
  | (c, d) :: rest => _ ← flush_registers_and_call c d; invoke_all rest
  end.

(** The same callbacks called by the caller itself, with no
    [flush_registers_and_call] in between. *)
Fixpoint call_all (calls : list (callback_func * Z)) : M unit :=
  match calls with
  | [] => mret tt
  | (c, d) :: rest => _ ← c d; call_all rest
  end.

End Clients.

(** Two machines that agree on everything a caller whose stack pointer is
    [hi] can observe: registers, heap blocks and memory from [hi] upwards
    (what lies below the stack pointer is dead). *)
Definition same_above (hi : Z) (m m' : machine) : Prop :=
  regs m = regs m' ∧ heap_blocks m = heap_blocks m'
  ∧ ∀ a, hi ≤ a → mem m !! a = mem m' !! a.

(** The call [c d] neither depends on nor changes anything but what a
    caller at [hi] can observe. *)
Definition respects (hi : Z) (cd : callback_func * Z) : Prop :=
  ∀ m m', same_above hi m m' →
    match (cd.1 cd.2 m).2, (cd.1 cd.2 m').2 with
    | Some (_, r), Some (_, r') => same_above hi r r'
    | None, None => True
    | _, _ => False
    end.

(** ** A concrete platform: x86-64 with the GNU C library

    [jmp_buf] is 200 bytes; [setjmp] stores eight 8-byte words: rbx, rbp,
    r12, r13, r14, r15, the stack pointer and the return address, of which
    rbp, the stack pointer and the return address are stored mangled
    (xor with a per-process guard, then a rotation by 17 bits).  Register
    numbers: 0 rbx, 1 rbp, 2 r12, 3 r13, 4 r14, 5 r15, 6 rsp, 7 rip. *)

Definition wrap64 (v : Z) : Z := Z.land v (2 ^ 64 - 1).

Definition rol64 (v : Z) (k : Z) : Z :=
  wrap64 (Z.lor (Z.shiftl v k) (Z.shiftr (wrap64 v) (64 - k))).

Definition ptr_mangle (guard v : Z) : Z := rol64 (Z.lxor v guard) 17.

Definition amd64_image (guard : Z) (rf : list Z) : list Z :=
  encode_word 8 (reg_value rf 0) ++
  encode_word 8 (ptr_mangle guard (reg_value rf 1)) ++
  encode_word 8 (reg_value rf 2) ++
  encode_word 8 (reg_value rf 3) ++
  encode_word 8 (reg_value rf 4) ++
  encode_word 8 (reg_value rf 5) ++
  encode_word 8 (ptr_mangle guard (reg_value rf 6)) ++
  encode_word 8 (ptr_mangle guard (reg_value rf 7)).

Definition amd64 : platform :=
  {| word_size := 8; sizeof_jmp_buf := 200;
     setjmp_image := amd64_image 0x5A5A5A5A5A5A5A5A; setjmp_value := 0 |}.

(** A machine whose r12 holds the only copy of the pointer [0xDEADBEEF]. *)
Definition sample_machine : machine :=
  {| regs := [0x1000; 0x7FFF0100; 0xDEADBEEF; 3; 4; 5; 0x7FFF0000; 0x400123];
     sp := 0x7FFF0000;
     mem := {[ 0x7FFF0008 := 5 ]};
     heap_blocks := [(0x600000, 16%nat)] |}.

(** ** Reading a saved context back *)

(** The value of a word from its bytes in memory order. *)
Definition decode_word (bs : list Z) : Z :=
  foldr (λ b acc, Z.lor b (Z.shiftl acc 8)) 0 bs.

Definition ror64 (v : Z) (k : Z) : Z :=
  wrap64 (Z.lor (Z.shiftr (wrap64 v) k) (Z.shiftl v (64 - k))).

(** What [longjmp] does to a mangled word before it restores it. *)
Definition ptr_demangle (guard y : Z) : Z := Z.lxor (ror64 y 17) guard.

(** [setjmp] saves register [r]: the register, as wide as a pointer, can be
    restored from what [setjmp] stored, which is what saving a context is
    for.  A register stored as it is ([captures]) is saved; so is one
    stored mangled. *)
Definition restorable (P : platform) (r : nat) : Prop :=
  ∃ restore : list Z → Z,
    ∀ rf, restore (setjmp_image rf)
          = Z.land (reg_value rf r) (Z.ones (8 * Z.of_nat word_size)).

(** A callback that reads the byte at [a] and aborts unless it finds [o]
    there ([None]: a byte nothing was ever stored in). *)
Definition probe (a : Z) (o : option Z) : callback_func := λ _ m,
  ([EvLoad a 1], if bool_decide (mem m !! a = o) then Some (tt, m) else None).

(** ** Towers and runs of calls *)

(** A callee whose trace is scoped and which, when it returns, has closed
    every call it opened. *)
Definition tidy (c : callback_func) : Prop :=
  ∀ d m, scoped_from 0 (c d m).1 = true
         ∧ (is_Some (c d m).2 → depth_after 0 (c d m).1 = 0%nat).


(** * Proofs *)

(** ** Memory lemmas *)

Lemma store_bytes_lookup_out (bs : list Z) (a x : Z) (μ : gmap Z Z) :
  x < a ∨ a + Z.of_nat (length bs) ≤ x →
  store_bytes a bs μ !! x = μ !! x.
Proof.
  revert a. induction bs as [|b bs IH]; intros a Hx; simpl in *; [done|].
  rewrite lookup_insert_ne by lia. apply IH. lia.
Qed.

Lemma store_bytes_lookup_in (bs : list Z) (a : Z) (i : nat) (μ : gmap Z Z) :
  (i < length bs)%nat →
  store_bytes a bs μ !! (a + Z.of_nat i) = bs !! i.
Proof.
  revert a i. induction bs as [|b bs IH]; intros a i Hi; simpl in *; [lia|].
  destruct i as [|i].
  - replace (a + Z.of_nat 0) with a by lia. by rewrite lookup_insert_eq.
  - rewrite lookup_insert_ne by lia.
    replace (a + Z.of_nat (S i)) with (a + 1 + Z.of_nat i) by lia.
    apply IH. lia.
Qed.

Lemma load_bytes_store (bs : list Z) (a : Z) (off w : nat) (μ : gmap Z Z) :
  (off + w ≤ length bs)%nat →
  load_bytes (store_bytes a bs μ) (a + Z.of_nat off) w
  = map Some (take w (drop off bs)).
Proof.
  intros Hlen. apply list_eq. intros i. unfold load_bytes.
  rewrite !list_lookup_fmap.
  destruct (decide (i < w)%nat) as [Hi|Hi].
  - rewrite lookup_seq_lt by done. simpl.
    rewrite <- Z.add_assoc, <- Nat2Z.inj_add.
    rewrite store_bytes_lookup_in by lia.
    rewrite lookup_take_lt by done. rewrite lookup_drop.
    destruct (bs !! (off + i)%nat) eqn:E; [done|].
    apply lookup_ge_None in E. lia.
  - rewrite lookup_seq_ge by lia.
    rewrite lookup_take_ge by lia. done.
Qed.

Lemma stack_scan_found (μ : gmap Z Z) (lo hi a : Z) (w : nat) (v : Z) :
  lo ≤ a → a + Z.of_nat w ≤ hi →
  word_at μ a w v = true →
  stack_scan μ lo hi w v = true.
Proof.
  intros Hlo Hhi Hw. unfold stack_scan. apply existsb_exists.
  exists a. split; [|done].
  apply list_elem_of_In, elem_of_seqZ. lia.
Qed.

Lemma store_bytes_lookup (bs : list Z) (a x : Z) (μ : gmap Z Z) :
  store_bytes a bs μ !! x
  = if decide (a ≤ x < a + Z.of_nat (length bs))
    then bs !! Z.to_nat (x - a) else μ !! x.
Proof.
  case_decide as Hx.
  - replace x with (a + Z.of_nat (Z.to_nat (x - a))) at 1 by lia.
    apply store_bytes_lookup_in. lia.
  - apply store_bytes_lookup_out. lia.
Qed.

(** ** Trace lemmas *)

Lemma calls_at_no_calls (k j : nat) (t : list event) :
  forallb (λ e, negb (is_call e)) t = true → calls_at k j t = [].
Proof.
  revert j. induction t as [|e t IH]; intros j H; simpl in *; [done|].
  apply andb_true_iff in H as [He Ht].
  destruct e; simpl in *; try done; by apply IH.
Qed.

(** Read from a level above [k], a scoped trace has no call at depth [k]
    and hands over at its own final depth. *)
Lemma calls_at_scoped (t rest : list event) (k b j : nat) :
  scoped_from j t = true → (k < b)%nat →
  calls_at k (b + j) (t ++ rest) = calls_at k (b + depth_after j t) rest.
Proof.
  revert j. induction t as [|e t IH]; intros j Hs Hk; simpl in *; [done|].
  destruct e; simpl; try (by apply IH).
  - rewrite bool_decide_eq_false_2 by lia. simpl.
    replace (S (b + j)) with (b + S j)%nat by lia. by apply IH.
  - destruct j as [|j]; [done|].
    replace (pred (b + S j)) with (b + j)%nat by lia. simpl. by apply IH.
Qed.

(** ** The run of [flush_registers_and_call], step by step *)

Section Run.
Context {P : platform}.

Lemma callback_entry_eq (m : machine) :
  callback_entry m =
    let env := sp m - Z.of_nat sizeof_jmp_buf in
    {| regs := regs m; sp := env;
       mem := store_bytes env (setjmp_image (regs m))
                (store_bytes env (replicate sizeof_jmp_buf 0) (mem m));
       heap_blocks := heap_blocks m |}.
Proof. reflexivity. Qed.

Lemma flush_run (c : callback_func) (d : Z) (m : machine) :
  flush_registers_and_call c d m =
    let env := sp m - Z.of_nat sizeof_jmp_buf in
    let pre := [EvReserve env sizeof_jmp_buf; EvMemset env 0 sizeof_jmp_buf;
                EvSetjmp env; EvCall d] in
    match c d (callback_entry m) with
    | (t, Some (_, m')) =>
        (pre ++ t ++ [EvRet; EvRelease env sizeof_jmp_buf],
         Some (tt, set_sp (sp m) m'))
    | (t, None) => (pre ++ t, None)
    end.
Proof.
  unfold flush_registers_and_call, auto_var, call, mbind, M_bind. simpl.
  rewrite callback_entry_eq. simpl.
  destruct (c d _) as [t [[[] m']|]]; simpl; [|done].
  by rewrite <- app_assoc.
Qed.

Lemma flush_trace_shape (c : callback_func) (d : Z) (m : machine) :
  ∃ post,
    (flush_registers_and_call c d m).1 =
      [EvReserve (sp m - Z.of_nat sizeof_jmp_buf) sizeof_jmp_buf;
       EvMemset (sp m - Z.of_nat sizeof_jmp_buf) 0 sizeof_jmp_buf;
       EvSetjmp (sp m - Z.of_nat sizeof_jmp_buf); EvCall d]
      ++ (c d (callback_entry m)).1 ++ post
    ∧ forallb (λ e, negb (is_call e)) post = true.
Proof.
  rewrite flush_run. simpl.
  destruct (c d (callback_entry m)) as [t [[[] m']|]]; simpl.
  - by eexists.
  - exists []. by rewrite app_nil_r.
Qed.

Lemma flush_calls_at_0 (c : callback_func) (d : Z) (m : machine) :
  scoped_from 0 (c d (callback_entry m)).1 = true →
  calls_at 0 0 (flush_registers_and_call c d m).1 = [d].
Proof.
  intros Hs. destruct (flush_trace_shape c d m) as (post & -> & Hpost).
  simpl. f_equal.
  pose proof (calls_at_scoped _ post 0 1 0 Hs) as E.
  simpl in E. rewrite E by lia.
  by apply calls_at_no_calls.
Qed.

Lemma flush_returns_iff (c : callback_func) (d : Z) (m : machine) :
  (flush_registers_and_call c d m).2 = None
  ↔ (c d (callback_entry m)).2 = None.
Proof.
  rewrite flush_run. simpl.
  by destruct (c d (callback_entry m)) as [t [[[] m']|]].
Qed.

Lemma flush_result (c : callback_func) (d : Z) (m : machine) :
  (flush_registers_and_call c d m).2
  = (λ r, (tt, set_sp (sp m) r.2)) <$> (c d (callback_entry m)).2.
Proof.
  rewrite flush_run. simpl.
  by destruct (c d (callback_entry m)) as [t [[[] m']|]].
Qed.

Lemma bind_result {A B} (c : M A) (k : A → M B) (m : machine) :
  (mbind k c m).2
  = match (c m).2 with Some (x, m1) => (k x m1).2 | None => None end.
Proof.
  unfold mbind, M_bind.
  destruct (c m) as [t1 [[x m1]|]]; simpl; [|done].
  by destruct (k x m1).
Qed.

Lemma callback_entry_same_above (m m' : machine) :
  setjmp_in_bounds P →
  same_above (sp m) m m' → same_above (sp m) (callback_entry m) m'.
Proof.
  intros HP (Hr & Hh & Hm). rewrite callback_entry_eq. simpl.
  split; [done|split; [done|]]. simpl. intros a Ha.
  specialize (HP (regs m)).
  rewrite !store_bytes_lookup_out by (rewrite ?length_replicate; lia).
  by apply Hm.
Qed.

(** Callbacks that respect the caller's view leave the same view behind
    whether they are called through [flush_registers_and_call] or
    directly. *)
Lemma invoke_all_same_above (hi : Z) (calls : list (callback_func * Z)) :
  setjmp_in_bounds P →
  Forall (respects hi) calls →
  ∀ m m', sp m = hi → same_above hi m m' →
    match (invoke_all calls m).2, (call_all calls m').2 with
    | Some (_, r), Some (_, r') => sp r = hi ∧ same_above hi r r'
    | None, None => True
    | _, _ => False
    end.
Proof.
  intros HP. induction 1 as [|[c d] rest Hcd _ IH]; intros m m' Hsp Hm.
  - done.
  - simpl. rewrite !bind_result, flush_result.
    subst hi. pose proof (callback_entry_same_above m m' HP Hm) as He.
    specialize (Hcd _ _ He). simpl in Hcd.
    destruct (c d (callback_entry m)).2 as [[[] r]|],
             (c d m').2 as [[[] r']|]; simpl; try done.
    apply IH; [done|].
    destruct Hcd as (? & ? & ?). by repeat split.
Qed.

End Run.

(** ** The sample callbacks *)

Lemma bump_respects (hi d : Z) : hi ≤ d → respects hi (bump, d).
Proof.
  intros Hd m m' (Hr & Hh & Hm). simpl. unfold bump.
  rewrite <- (Hm d Hd).
  destruct (mem m !! d) as [b|]; simpl; [|done].
  split; [done|split; [done|]]. simpl. intros a Ha.
  rewrite !lookup_insert. case_decide; [done|by apply Hm].
Qed.


(** ** The contract of [flush_registers_and_call] *)

Section Contract.
Context {P : platform}.

(** C1. For every callback [c] and every data value [d],
    [flush_registers_and_call c d] calls [c] exactly once, with argument
    exactly [d], before it returns: the calls at its own level are the one
    call with [d]; the trace of that call is the trace of [c d], placed
    between steps that are not calls; the outcome is the outcome of that
    one run of [c]; and a callback that checks its argument against [v]
    gets through exactly when [v] is [d]. *)
Theorem flush_calls_callback_exactly_once
    (c : callback_func) (d : Z) (m : machine) :
  scoped c →
  calls_at 0 0 (flush_registers_and_call c d m).1 = [d]
  ∧ (∃ pre post,
      (flush_registers_and_call c d m).1
        = pre ++ EvCall d :: (c d (callback_entry m)).1 ++ post
      ∧ forallb (λ e, negb (is_call e)) pre = true
      ∧ forallb (λ e, negb (is_call e)) post = true)
  ∧ (flush_registers_and_call c d m).2
    = (λ r, (tt, set_sp (sp m) r.2)) <$> (c d (callback_entry m)).2
  ∧ (∀ v, is_Some (flush_registers_and_call (expect v) d m).2 ↔ d = v).
Proof.
  intros Hs. split; [|split; [|split]].
  - apply flush_calls_at_0, Hs.
  - destruct (flush_trace_shape c d m) as (post & E & Hpost).
    eexists [_; _; _], post. by rewrite E.
  - apply flush_result.
  - intros v. rewrite flush_result. unfold expect.
    case_bool_decide; simpl; split; intros Hr; try done; by destruct Hr.
Qed.


(** C4. [flush_registers_and_call] takes no non-local jump and reads
    nothing back: every jump and every read in its trace is one the
    callback made.  When it returns, it returns to its caller, whose stack
    pointer is in place again; it returns whenever the callback does; and
    what the caller does next runs from the machine it returned. *)
Theorem flush_takes_no_jump (c : callback_func) (d : Z) (m : machine) :
  (∀ e, e ∈ (flush_registers_and_call c d m).1 →
        jumps_or_reads e = true → e ∈ (c d (callback_entry m)).1)
  ∧ (∀ x m', (flush_registers_and_call c d m).2 = Some (x, m') →
             sp m' = sp m
             ∧ ∃ m2, (c d (callback_entry m)).2 = Some (tt, m2))
  ∧ (is_Some (c d (callback_entry m)).2 →
     is_Some (flush_registers_and_call c d m).2)
  ∧ (∀ (next : M unit) m',
       (flush_registers_and_call c d m).2 = Some (tt, m') →
       (_ ← flush_registers_and_call c d; next) m
       = ((flush_registers_and_call c d m).1 ++ (next m').1, (next m').2)).
Proof.
  split; [|split; [|split]].
  - intros e. rewrite flush_run. simpl.
    destruct (c d (callback_entry m)) as [t [[[] m']|]]; simpl;
      intros He Hj;
      repeat (apply elem_of_cons in He as [->|He]; [by simpl in Hj|]).
    + apply elem_of_app in He as [He|He]; [exact He|].
      repeat (apply elem_of_cons in He as [->|He]; [by simpl in Hj|]).
      by apply elem_of_nil in He.
    + exact He.
  - intros x m'. rewrite flush_result.
    destruct (c d (callback_entry m)) as [t [[[] m2]|]]; simpl; [|done].
    intros [= <- <-]. split; [done|by eexists].
  - rewrite flush_result. intros [r ->]. by eexists.
  - intros next m' Hr. unfold mbind, M_bind.
    destruct (flush_registers_and_call c d m) as [t r]. simpl in Hr.
    subst r. by destruct (next m').
Qed.

(** C7. [flush_registers_and_call] has no failure mode of its own: it
    fails to return exactly when the callback, run from the machine it is
    entered in, fails to return; what it returns carries no status (the
    unit value); and with a callback that returns it always returns. *)
Theorem flush_has_no_error (c : callback_func) (d : Z) (m : machine) :
  ((flush_registers_and_call c d m).2 = None
     ↔ (c d (callback_entry m)).2 = None)
  ∧ (∀ x m', (flush_registers_and_call c d m).2 = Some (x, m') → x = tt)
  ∧ is_Some (flush_registers_and_call idle d m).2.
Proof.
  split; [apply flush_returns_iff|split].
  - by intros [] m' _.
  - rewrite flush_result. by eexists.
Qed.

(** C8. With a null [data], the callback is given that same null
    reference: the call in the trace carries [NULL], a callback that
    asserts its argument is [NULL] passes, one that expects any other
    value does not, and the call completes whenever the callback does. *)
Theorem flush_passes_null (c : callback_func) (m : machine) :
  (∃ pre post,
      (flush_registers_and_call c NULL m).1
        = pre ++ EvCall NULL :: (c NULL (callback_entry m)).1 ++ post
      ∧ forallb (λ e, negb (is_call e)) pre = true
      ∧ forallb (λ e, negb (is_call e)) post = true)
  ∧ is_Some (flush_registers_and_call (expect NULL) NULL m).2
  ∧ (∀ v, v ≠ NULL → (flush_registers_and_call (expect v) NULL m).2 = None)
  ∧ (is_Some (c NULL (callback_entry m)).2 →
     is_Some (flush_registers_and_call c NULL m).2).
Proof.
  split; [|split; [|split]].
  - destruct (flush_trace_shape c NULL m) as (post & E & Hpost).
    eexists [_; _; _], post. by rewrite E.
  - rewrite flush_result. by eexists.
  - intros v Hv. rewrite flush_result. unfold expect.
    by rewrite bool_decide_eq_false_2.
  - rewrite flush_result. intros [r ->]. by eexists.
Qed.

(** C9. [flush_registers_and_call] terminates whenever the callback
    does: if [c d] returns from every machine, so does
    [flush_registers_and_call c d], and the steps it adds to those of the
    callback are always the same six (straight-line code: no loop, no
    recursion, no branch). *)
Theorem flush_terminates (c : callback_func) (d : Z) :
  (∀ m', is_Some (c d m').2) →
  ∀ m, is_Some (flush_registers_and_call c d m).2
       ∧ length (flush_registers_and_call c d m).1
         = (6 + length (c d (callback_entry m)).1)%nat.
Proof.
  intros Hc m. specialize (Hc (callback_entry m)).
  rewrite flush_run. simpl.
  destruct (c d (callback_entry m)) as [t [[[] m']|]]; simpl in *.
  - split; [by eexists|]. rewrite length_app. simpl. lia.
  - by destruct Hc.
Qed.

(** C10. The zero-fill writes exactly [sizeof(jmp_buf)] bytes from the
    address of the frame-local [env]: [memset] is the step after the
    reservation, on the address and the size the buffer was reserved with,
    and a callback that reads any one byte of memory finds what [setjmp]
    stored there, else zero when the byte lies in the buffer, else what the
    caller had, so the zeros cover the buffer and nothing outside it.  The
    value [setjmp] returns is discarded: with any other value the run is
    the same. *)
Theorem flush_zero_fill_exact (c : callback_func) (d : Z) (m : machine) :
  let env := sp m - Z.of_nat sizeof_jmp_buf in
  let found (a : Z) :=
    if decide (env ≤ a < env + Z.of_nat (length (setjmp_image (regs m))))
    then setjmp_image (regs m) !! Z.to_nat (a - env)
    else if decide (env ≤ a < env + Z.of_nat sizeof_jmp_buf)
    then Some 0
    else mem m !! a in
  (flush_registers_and_call c d m).1
    = [EvReserve env sizeof_jmp_buf; EvMemset env 0 sizeof_jmp_buf;
       EvSetjmp env; EvCall d]
      ++ (c d (callback_entry m)).1
      ++ match (c d (callback_entry m)).2 with
         | Some _ => [EvRet; EvRelease env sizeof_jmp_buf]
         | None => []
         end
  ∧ (flush_registers_and_call c d m).2
    = (λ r, (tt, set_sp (sp m) r.2)) <$> (c d (callback_entry m)).2
  ∧ (∀ a o, is_Some (flush_registers_and_call (probe a o) d m).2
            ↔ o = found a)
  ∧ (∀ a, mem (callback_entry m) !! a = found a)
  ∧ (∀ v, @flush_registers_and_call (with_setjmp_value v P) c d m
          = flush_registers_and_call c d m).
Proof.
  intros env found.
  assert (Hmem : ∀ a, mem (callback_entry m) !! a = found a).
  { intros a. rewrite callback_entry_eq. fold env. simpl. unfold found.
    rewrite !store_bytes_lookup, length_replicate.
    case_decide; [done|]. case_decide as Ha; [|done].
    apply lookup_replicate_2. lia. }
  split; [|split; [|split; [|split]]].
  - rewrite flush_run. fold env. simpl.
    destruct (c d (callback_entry m)) as [t [[[] m']|]]; simpl; [done|].
    by rewrite app_nil_r.
  - apply flush_result.
  - intros a o. rewrite flush_result. unfold probe. simpl.
    rewrite Hmem. case_bool_decide as Ho; simpl.
    + split; [done|]. intros _. by eexists.
    + split; [by intros [? ?]|]. intros ->. by destruct Ho.
  - exact Hmem.
  - done.
Qed.

(** C2, amended. A value held in a register that [setjmp] stores as it is
    ([captures]: not mangled or otherwise encoded) is in stack memory when
    the callback runs: the callback is entered with the
    value's bytes in the snapshot buffer, inside the frame of
    [flush_registers_and_call], so a scan of the stack from the
    callback's stack pointer up to any base at or above the caller's
    finds it, and a callback that performs this scan and aborts on a miss
    returns. *)
Theorem flush_spills_captured_registers
    (c : callback_func) (d : Z) (m : machine) (r off : nat) :
  captures P r off →
  setjmp_in_bounds P →
  let m1 := callback_entry m in
  let v := reg_value (regs m) r in
  (flush_registers_and_call c d m).2
    = (λ x, (tt, set_sp (sp m) x.2)) <$> (c d m1).2
  ∧ word_at (mem m1) (sp m1 + Z.of_nat off) word_size v = true
  ∧ sp m1 + Z.of_nat off + Z.of_nat word_size ≤ sp m
  ∧ (∀ base, sp m ≤ base →
       stack_scan (mem m1) (sp m1) base word_size v = true
       ∧ is_Some (flush_registers_and_call (scan_for v) base m).2).
Proof.
  intros Hcap HP m1 v.
  destruct (Hcap (regs m)) as [Hlen Himg]. specialize (HP (regs m)).
  assert (Hw : word_at (mem m1) (sp m1 + Z.of_nat off) word_size v = true).
  { apply bool_decide_eq_true. unfold m1. rewrite callback_entry_eq. simpl.
    rewrite load_bytes_store by done. by rewrite Himg. }
  assert (Hin : sp m1 + Z.of_nat off + Z.of_nat word_size ≤ sp m).
  { unfold m1. rewrite callback_entry_eq. simpl. lia. }
  split; [apply flush_result|]. split; [done|]. split; [done|].
  intros base Hb.
  assert (Hs : stack_scan (mem m1) (sp m1) base word_size v = true).
  { apply (stack_scan_found _ _ _ (sp m1 + Z.of_nat off)); [lia|lia|done]. }
  split; [done|].
  rewrite flush_result.
  change (scan_for v base (callback_entry m)).2
    with (if stack_scan (mem m1) (sp m1) base word_size v
          then Some (tt, m1) else None).
  rewrite Hs. by eexists.
Qed.

(** C5. Nested invocation: when the callback itself calls
    [flush_registers_and_call] with a second callback, the steps are, in
    order, the outer capture, the outer call, the inner capture, the
    inner call, the inner return and the outer return; each callback is
    called exactly once at its own level; the inner buffer lies wholly
    below the outer one, which the inner call leaves as it was; and the
    outer call returns exactly when the inner callback does. *)
Theorem flush_nested
    (c2 : callback_func) (d1 d2 : Z) (m : machine) :
  setjmp_in_bounds P →
  scoped c2 →
  let n := sizeof_jmp_buf in
  let env1 := sp m - Z.of_nat n in
  let env2 := sp m - Z.of_nat n - Z.of_nat n in
  let m2 := callback_entry (callback_entry m) in
  let run := flush_registers_and_call (nested c2 d2) d1 m in
  run.1 = [EvReserve env1 n; EvMemset env1 0 n; EvSetjmp env1; EvCall d1;
           EvReserve env2 n; EvMemset env2 0 n; EvSetjmp env2; EvCall d2]
          ++ (c2 d2 m2).1
          ++ match (c2 d2 m2).2 with
             | Some _ => [EvRet; EvRelease env2 n; EvRet; EvRelease env1 n]
             | None => []
             end
  ∧ calls_at 0 0 run.1 = [d1]
  ∧ calls_at 1 0 run.1 = [d2]
  ∧ env2 + Z.of_nat n ≤ env1
  ∧ (∀ a, env1 ≤ a → mem m2 !! a = mem (callback_entry m) !! a)
  ∧ run.2 = (λ x, (tt, set_sp (sp m) x.2)) <$> (c2 d2 m2).2.
Proof.
  intros HP Hs n env1 env2 m2 run.
  assert (Ht : run.1
    = [EvReserve env1 n; EvMemset env1 0 n; EvSetjmp env1; EvCall d1;
       EvReserve env2 n; EvMemset env2 0 n; EvSetjmp env2; EvCall d2]
      ++ (c2 d2 m2).1
      ++ match (c2 d2 m2).2 with
         | Some _ => [EvRet; EvRelease env2 n; EvRet; EvRelease env1 n]
         | None => []
         end).
  { unfold run, nested. rewrite flush_run. rewrite flush_run.
    change (sp (callback_entry m)) with env1. fold m2. simpl.
    fold n. fold env1. fold env2.
    destruct (c2 d2 m2) as [t [[[] m']|]]; simpl.
    - by rewrite <- app_assoc.
    - by rewrite app_nil_r. }
  split; [done|].
  specialize (Hs d2 m2).
  assert (Hpost : forallb (λ e, negb (is_call e))
            match (c2 d2 m2).2 with
            | Some _ => [EvRet; EvRelease env2 n; EvRet; EvRelease env1 n]
            | None => []
            end = true) by by destruct (c2 d2 m2).2.
  split; [|split; [|split; [|split]]].
  - rewrite Ht. simpl. f_equal.
    pose proof (calls_at_scoped _ (match (c2 d2 m2).2 with
            | Some _ => [EvRet; EvRelease env2 n; EvRet; EvRelease env1 n]
            | None => [] end) 0 2 0 Hs) as E.
    simpl in E. rewrite E by lia. by apply calls_at_no_calls.
  - rewrite Ht. simpl. f_equal.
    pose proof (calls_at_scoped _ (match (c2 d2 m2).2 with
            | Some _ => [EvRet; EvRelease env2 n; EvRet; EvRelease env1 n]
            | None => [] end) 1 2 0 Hs) as E.
    simpl in E. rewrite E by lia. by apply calls_at_no_calls.
  - lia.
  - intros a Ha. unfold m2. rewrite (callback_entry_eq (callback_entry m)).
    change (sp (callback_entry m)) with env1. simpl.
    specialize (HP (regs m)). fold n in HP |- *.
    rewrite !store_bytes_lookup_out by (rewrite ?length_replicate; lia).
    done.
  - unfold run, nested. rewrite flush_result, flush_result. fold m2.
    by destruct (c2 d2 m2).2 as [[[] m']|].
Qed.

(** C6. The effects of [flush_registers_and_call] itself are writes to
    its own frame: the callback is entered with the caller's registers
    and heap blocks and with the caller's memory everywhere outside the
    buffer; what the call leaves is what the callback left, with the
    caller's stack pointer back in place; and a sequence of calls made
    through [flush_registers_and_call] leaves the caller the view that
    the same callbacks, called directly, leave. *)
Theorem flush_effects_are_stack_local
    (c : callback_func) (d : Z) (m : machine)
    (calls : list (callback_func * Z)) :
  setjmp_in_bounds P →
  Forall (respects (sp m)) calls →
  let env := sp m - Z.of_nat sizeof_jmp_buf in
  let m1 := callback_entry m in
  regs m1 = regs m ∧ heap_blocks m1 = heap_blocks m ∧ sp m1 = env
  ∧ (∀ a, a < env ∨ sp m ≤ a → mem m1 !! a = mem m !! a)
  ∧ (∀ m2, (c d m1).2 = Some (tt, m2) →
           (flush_registers_and_call c d m).2 = Some (tt, set_sp (sp m) m2))
  ∧ match (invoke_all calls m).2, (call_all calls m).2 with
    | Some (_, r), Some (_, r') => sp r = sp m ∧ same_above (sp m) r r'
    | None, None => True
    | _, _ => False
    end.
Proof.
  intros HP Hcalls env m1.
  split; [done|split; [done|split; [done|split; [|split]]]].
  - intros a Ha. unfold m1. rewrite callback_entry_eq. fold env. simpl.
    specialize (HP (regs m)).
    rewrite !store_bytes_lookup_out by (rewrite ?length_replicate; lia).
    done.
  - intros m2 Hc. rewrite flush_result. fold m1. by rewrite Hc.
  - by apply invoke_all_same_above.
Qed.

End Contract.

(** ** Registers that are saved but not stored as they are *)

Ltac bits :=
  repeat first
    [ rewrite Z.land_spec | rewrite Z.lor_spec | rewrite Z.lxor_spec
    | rewrite Z.shiftl_spec_low by lia
    | rewrite Z.shiftr_spec by lia | rewrite Z.shiftl_spec by lia
    | rewrite Z.testbit_ones_nonneg by lia
    | rewrite Z.testbit_neg_r by lia ].

Ltac ltb_decide :=
  repeat match goal with
  | |- context [?a <? ?b] =>
      first [ replace (a <? b) with true by (symmetry; apply Z.ltb_lt; lia)
            | replace (a <? b) with false by (symmetry; apply Z.ltb_ge; lia) ]
  end.

Lemma decode_encode_from (w s : nat) (v : Z) :
  decode_word
    (map (λ i : nat, Z.land (Z.shiftr v (8 * Z.of_nat i)) 255) (seq s w))
  = Z.land (Z.shiftr v (8 * Z.of_nat s)) (Z.ones (8 * Z.of_nat w)).
Proof.
  revert s. induction w as [|w IH]; intros s.
  - simpl. by rewrite Z.land_0_r.
  - change (decode_word
              (map (λ i : nat, Z.land (Z.shiftr v (8 * Z.of_nat i)) 255)
                 (seq s (S w))))
      with (Z.lor (Z.land (Z.shiftr v (8 * Z.of_nat s)) 255)
              (Z.shiftl
                 (decode_word
                    (map (λ i : nat, Z.land (Z.shiftr v (8 * Z.of_nat i)) 255)
                       (seq (S s) w))) 8)).
    rewrite IH. change 255 with (Z.ones 8).
    apply Z.bits_inj'. intros i Hi.
    destruct (Z.lt_ge_cases i 8) as [H8|H8].
    + bits. ltb_decide. by rewrite orb_false_r.
    + bits.
      replace (i - 8 + 8 * Z.of_nat (S s)) with (i + 8 * Z.of_nat s) by lia.
      destruct (Z.lt_ge_cases i (8 * Z.of_nat (S w))); ltb_decide;
        by rewrite ?andb_false_r.
Qed.

(** Reading back a stored word gives the value, as wide as the word. *)
Lemma decode_encode_word (w : nat) (v : Z) :
  decode_word (encode_word w v) = Z.land v (Z.ones (8 * Z.of_nat w)).
Proof.
  unfold encode_word. rewrite decode_encode_from. simpl.
  by rewrite Z.shiftr_0_r.
Qed.

Lemma wrap64_ones (v : Z) : wrap64 v = Z.land v (Z.ones 64).
Proof. reflexivity. Qed.

Lemma ror64_rol64 (x : Z) : ror64 (rol64 x 17) 17 = wrap64 x.
Proof.
  unfold ror64, rol64. rewrite !wrap64_ones.
  apply Z.bits_inj'. intros i Hi.
  destruct (Z.lt_ge_cases i 47) as [Ha|Ha];
    [|destruct (Z.lt_ge_cases i 64) as [Hb|Hb]].
  - bits. ltb_decide. replace (i + 17 - 17) with i by lia.
    by rewrite ?andb_true_r, ?andb_false_r, ?orb_false_r.
  - bits. ltb_decide. replace (i - (64 - 17) + (64 - 17)) with i by lia.
    by rewrite ?andb_true_r, ?andb_false_r, ?orb_false_r, ?orb_false_l.
  - bits. ltb_decide. by rewrite ?andb_false_r.
Qed.

(** Mangling is undone by demangling with the same guard. *)
Lemma ptr_demangle_mangle (g v : Z) :
  0 ≤ g < 2 ^ 64 → ptr_demangle g (ptr_mangle g v) = wrap64 v.
Proof.
  intros Hg. unfold ptr_demangle, ptr_mangle.
  rewrite ror64_rol64, !wrap64_ones.
  apply Z.bits_inj'. intros i Hi. bits.
  destruct (Z.lt_ge_cases i 64) as [Hb|Hb]; ltb_decide.
  - rewrite !andb_true_r. by destruct (Z.testbit v i), (Z.testbit g i).
  - rewrite !andb_false_r. simpl.
    apply (Z.bits_above_log2 g i); [lia|].
    destruct (decide (g = 0)) as [->|Hne]; [simpl; lia|].
    assert (Z.log2 g < 64) by (apply Z.log2_lt_pow2; lia). lia.
Qed.

(** A register stored as it is can be restored. *)
Lemma captures_restorable (P : platform) (r off : nat) :
  captures P r off → restorable P r.
Proof.
  intros Hc. exists (λ img, decode_word (take word_size (drop off img))).
  intros rf. destruct (Hc rf) as [_ ->]. apply decode_encode_word.
Qed.

(** On the sample platform rbp is stored mangled, and can be restored. *)
Lemma amd64_rbp_restorable : restorable amd64 1.
Proof.
  exists (λ img, ptr_demangle 0x5A5A5A5A5A5A5A5A
                   (decode_word (take 8 (drop 8 img)))).
  intros rf.
  change (take 8 (drop 8 (@setjmp_image amd64 rf)))
    with (encode_word 8 (ptr_mangle 0x5A5A5A5A5A5A5A5A (reg_value rf 1))).
  rewrite decode_encode_word.
  change (Z.ones (8 * Z.of_nat 8)) with (Z.ones 64).
  change (Z.ones (8 * Z.of_nat (@word_size amd64))) with (Z.ones 64).
  unfold ptr_mangle at 1, rol64 at 1. rewrite <- !wrap64_ones.
  assert (Hidem : ∀ x, wrap64 (wrap64 x) = wrap64 x).
  { intros x. rewrite !wrap64_ones, <- Z.land_assoc. by rewrite Z.land_diag. }
  rewrite Hidem.
  change (wrap64 (Z.lor (Z.shiftl (Z.lxor (reg_value rf 1) 0x5A5A5A5A5A5A5A5A) 17)
            (Z.shiftr (wrap64 (Z.lxor (reg_value rf 1) 0x5A5A5A5A5A5A5A5A))
               (64 - 17))))
    with (ptr_mangle 0x5A5A5A5A5A5A5A5A (reg_value rf 1)).
  apply ptr_demangle_mangle. lia.
Qed.

(** C2, as the specification states it, fails: rbp is a register [setjmp]
    saves, the sample machine holds the pointer [0x7FFF0100] in it and
    nowhere in memory, and a scan from the stack pointer of the callback up
    to and beyond the caller's frame does not find that pointer, because
    the buffer holds it mangled; a callback that scans for it aborts. *)
Lemma saved_register_not_found :
  setjmp_in_bounds amd64
  ∧ restorable amd64 1
  ∧ reg_value (regs sample_machine) 1 = 0x7FFF0100
  ∧ stack_scan (mem (@callback_entry amd64 sample_machine))
      (sp (@callback_entry amd64 sample_machine)) 0x7FFF0100
      (@word_size amd64) 0x7FFF0100 = false
  ∧ (@flush_registers_and_call amd64 (@scan_for amd64 0x7FFF0100) 0x7FFF0100
       sample_machine).2 = None.
Proof.
  split; [intros rf; vm_compute; lia|].
  split; [exact amd64_rbp_restorable|].
  split; [reflexivity|].
  split; vm_compute; reflexivity.
Qed.

(** ** The contract at work on the sample platform

    The sample machine has its stack pointer at [0x7FFF0000], a counter byte
    holding 5 at [0x7FFF0008] in the caller's frame, and the pointer
    [0xDEADBEEF] in r12 only. *)

Lemma flush_calls_callback_exactly_once_witness :
  scoped bump
  ∧ calls_at 0 0
      (@flush_registers_and_call amd64 bump 0x7FFF0008 sample_machine).1
    = [0x7FFF0008].
Proof.
  assert (H : scoped bump).
  { intros d m. unfold bump. destruct (mem m !! d); reflexivity. }
  split; [exact H|].
  exact (proj1 (@flush_calls_callback_exactly_once amd64 bump 0x7FFF0008
                  sample_machine H)).
Defined.

Lemma flush_terminates_witness :
  (∀ m', is_Some (idle 7 m').2)
  ∧ is_Some (@flush_registers_and_call amd64 idle 7 sample_machine).2.
Proof.
  assert (H : ∀ m', is_Some (idle 7 m').2).
  { intros m'. simpl. eexists. reflexivity. }
  split; [exact H|].
  exact (proj1 (@flush_terminates amd64 idle 7 H sample_machine)).
Defined.

Lemma flush_spills_captured_registers_witness :
  captures amd64 2 16
  ∧ setjmp_in_bounds amd64
  ∧ is_Some (@flush_registers_and_call amd64 (@scan_for amd64 0xDEADBEEF) 0x7FFF0000
               sample_machine).2.
Proof.
  assert (Hc : captures amd64 2 16).
  { intros rf. split; [vm_compute; lia|reflexivity]. }
  assert (Hb : setjmp_in_bounds amd64).
  { intros rf. vm_compute. lia. }
  split; [exact Hc|]. split; [exact Hb|].
  refine (proj2 (proj2 (proj2 (proj2
    (@flush_spills_captured_registers amd64 idle 0 sample_machine 2%nat 16%nat
       Hc Hb))) 0x7FFF0000 _)).
  simpl. lia.
Defined.

Lemma flush_nested_witness :
  setjmp_in_bounds amd64
  ∧ scoped bump
  ∧ calls_at 0 0
      (@flush_registers_and_call amd64 (@nested amd64 bump 0x7FFF0008) 7
         sample_machine).1 = [7]
  ∧ calls_at 1 0
      (@flush_registers_and_call amd64 (@nested amd64 bump 0x7FFF0008) 7
         sample_machine).1 = [0x7FFF0008].
Proof.
  assert (Hb : setjmp_in_bounds amd64).
  { intros rf. vm_compute. lia. }
  assert (Hs : scoped bump).
  { intros d m. unfold bump. destruct (mem m !! d); reflexivity. }
  split; [exact Hb|]. split; [exact Hs|].
  pose proof (@flush_nested amd64 bump 7 0x7FFF0008 sample_machine Hb Hs)
    as (_ & H0 & H1 & _).
  split; [exact H0|exact H1].
Defined.

Lemma flush_effects_are_stack_local_witness :
  setjmp_in_bounds amd64
  ∧ Forall (respects (sp sample_machine))
      [(bump, 0x7FFF0008); (bump, 0x7FFF0008)]
  ∧ match (@invoke_all amd64 [(bump, 0x7FFF0008); (bump, 0x7FFF0008)]
             sample_machine).2,
          (call_all [(bump, 0x7FFF0008); (bump, 0x7FFF0008)]
             sample_machine).2 with
    | Some (_, r), Some (_, r') =>
        sp r = sp sample_machine ∧ same_above (sp sample_machine) r r'
    | None, None => True
    | _, _ => False
    end.
Proof.
  assert (Hb : setjmp_in_bounds amd64).
  { intros rf. vm_compute. lia. }
  assert (Hr : Forall (respects (sp sample_machine))
                 [(bump, 0x7FFF0008); (bump, 0x7FFF0008)]).
  { assert (H1 : respects (sp sample_machine) (bump, 0x7FFF0008)).
    { apply bump_respects. simpl. lia. }
    apply Forall_cons_2; [exact H1|].
    apply Forall_cons_2; [exact H1|]. apply Forall_nil_2. }
  split; [exact Hb|]. split; [exact Hr|].
  pose proof (@flush_effects_are_stack_local amd64 idle 0 sample_machine
                [(bump, 0x7FFF0008); (bump, 0x7FFF0008)] Hb Hr) as H.
  cbv zeta in H. destruct H as (_ & _ & _ & _ & _ & H). exact H.
Defined.

(** Scenario 1 of the specification: the callback adds one to a counter
    that holds 5; after the call it holds 6, and nothing else the caller
    can see has changed. *)
Example scenario_counter :
  (λ x, (mem x.2 !! 0x7FFF0008, sp x.2, regs x.2, heap_blocks x.2))
    <$> (@flush_registers_and_call amd64 bump 0x7FFF0008 sample_machine).2
  = Some (Some 6, sp sample_machine, regs sample_machine,
          heap_blocks sample_machine).
Proof. vm_compute. reflexivity. Qed.

(** Scenario 2: the scanning callback finds the pointer that was in r12
    only. *)
Example scenario_scan_finds_r12 :
  (@flush_registers_and_call amd64 (@scan_for amd64 0xDEADBEEF) 0x7FFF0000
     sample_machine).2 ≠ None.
Proof. vm_compute. discriminate. Qed.

(** A register that [setjmp] stores mangled is not captured in the sense of
    [captures]: the scan does not find the value of rbp in the frame of
    [flush_registers_and_call]. *)
Example scenario_scan_misses_mangled_rbp :
  reg_value (regs sample_machine) 1 = 0x7FFF0100
  ∧ (@flush_registers_and_call amd64 (@scan_for amd64 0x7FFF0100) 0x7FFF0000
       sample_machine).2 = None.
Proof. split; vm_compute; reflexivity. Qed.

(** Scenario 3: a null [data] reaches the callback. *)
Example scenario_null :
  (@flush_registers_and_call amd64 (expect NULL) NULL sample_machine).1
  = [EvReserve 0x7FFEFF38 200; EvMemset 0x7FFEFF38 0 200; EvSetjmp 0x7FFEFF38;
     EvCall 0; EvRet; EvRelease 0x7FFEFF38 200].
Proof. vm_compute. reflexivity. Qed.

(** Scenario 4: the nested call, step by step. *)
Example scenario_nested :
  (@flush_registers_and_call amd64 (@nested amd64 idle 9) 7 sample_machine).1
  = [EvReserve 0x7FFEFF38 200; EvMemset 0x7FFEFF38 0 200; EvSetjmp 0x7FFEFF38;
     EvCall 7;
     EvReserve 0x7FFEFE70 200; EvMemset 0x7FFEFE70 0 200; EvSetjmp 0x7FFEFE70;
     EvCall 9; EvRet; EvRelease 0x7FFEFE70 200;
     EvRet; EvRelease 0x7FFEFF38 200].
Proof. vm_compute. reflexivity. Qed.

(** A callback that leaves by [longjmp] to a context of its caller's: the
    jump in the trace is the callback's, and the call does not return. *)
Example scenario_escape :
  @flush_registers_and_call amd64 escape 0x7FFF0100 sample_machine
  = ([EvReserve 0x7FFEFF38 200; EvMemset 0x7FFEFF38 0 200; EvSetjmp 0x7FFEFF38;
      EvCall 0x7FFF0100; EvLongjmp 0x7FFF0100], None).
Proof. vm_compute. reflexivity. Qed.

(** * Beyond one call: towers and runs of calls *)

(** ** More on traces *)

Lemma calls_at_app (k j : nat) (t1 t2 : list event) :
  calls_at k j (t1 ++ t2)
  = calls_at k j t1 ++ calls_at k (depth_after j t1) t2.
Proof.
  revert j. induction t1 as [|e t1 IH]; intros j; simpl; [done|].
  destruct e; simpl; rewrite ?IH; try done.
  by rewrite app_assoc.
Qed.

Lemma depth_after_app (j : nat) (t1 t2 : list event) :
  depth_after j (t1 ++ t2) = depth_after (depth_after j t1) t2.
Proof.
  revert j. induction t1 as [|e t1 IH]; intros j; simpl; [done|].
  destruct e; simpl; by rewrite ?IH.
Qed.

Lemma depth_after_scoped (t : list event) (b j : nat) :
  scoped_from j t = true →
  depth_after (b + j) t = (b + depth_after j t)%nat.
Proof.
  revert j. induction t as [|e t IH]; intros j Hs; simpl in *; [done|].
  destruct e; simpl; try (by apply IH).
  - replace (S (b + j)) with (b + S j)%nat by lia. by apply IH.
  - destruct j as [|j]; [done|].
    replace (pred (b + S j)) with (b + j)%nat by lia. simpl. by apply IH.
Qed.



(** ** More on memory *)



Section Towers.
Context {P : platform}.

Lemma bind_trace {A B} (c : M A) (k : A → M B) (m : machine) :
  (mbind k c m).1
  = (c m).1 ++ match (c m).2 with Some (x, m1) => (k x m1).1 | None => [] end.
Proof.
  unfold mbind, M_bind.
  destruct (c m) as [t1 [[x m1]|]]; simpl; [|by rewrite app_nil_r].
  by destruct (k x m1).
Qed.

Lemma flush_trace (c : callback_func) (d : Z) (m : machine) :
  (flush_registers_and_call c d m).1
  = [EvReserve (sp m - Z.of_nat sizeof_jmp_buf) sizeof_jmp_buf;
     EvMemset (sp m - Z.of_nat sizeof_jmp_buf) 0 sizeof_jmp_buf;
     EvSetjmp (sp m - Z.of_nat sizeof_jmp_buf); EvCall d]
    ++ (c d (callback_entry m)).1
    ++ match (c d (callback_entry m)).2 with
       | Some _ => [EvRet; EvRelease (sp m - Z.of_nat sizeof_jmp_buf)
                             sizeof_jmp_buf]
       | None => []
       end.
Proof.
  rewrite flush_run. simpl.
  destruct (c d (callback_entry m)) as [t [[[] m']|]]; simpl; [done|].
  by rewrite app_nil_r.
Qed.


(** When the call returns, its trace closes what it opened if the
    callback's does. *)
Lemma flush_depth (c : callback_func) (d : Z) (m : machine) :
  scoped_from 0 (c d (callback_entry m)).1 = true →
  is_Some (c d (callback_entry m)).2 →
  depth_after 0 (flush_registers_and_call c d m).1
  = depth_after 0 (c d (callback_entry m)).1.
Proof.
  intros Hs [r Hr]. rewrite flush_trace, Hr. simpl.
  rewrite depth_after_app.
  pose proof (depth_after_scoped _ 1 0 Hs) as E. simpl in E.
  rewrite E. done.
Qed.







End Towers.

(** ** Runs, towers and the content of the buffer *)

Section Compositions.
Context {P : platform}.

(** X1. A caller that makes calls one after the other.  Whatever the
    callbacks do, the stack pointer it gets back is its own.  With tidy
    callbacks, a run that returns has made, at the caller's level, the
    calls of the list: their data in order, each once; and a run that does
    not return stopped in the first callback that did not return: the
    calls before it returned, and the calls made are those and that
    one. *)
Theorem invoke_all_in_order (calls : list (callback_func * Z)) (m : machine) :
  (∀ r, (invoke_all calls m).2 = Some (tt, r) → sp r = sp m)
  ∧ (Forall (λ cd, tidy cd.1) calls →
     (is_Some (invoke_all calls m).2 →
      calls_at 0 0 (invoke_all calls m).1 = calls.*2)
     ∧ ((invoke_all calls m).2 = None →
        ∃ before c d rest m1,
          calls = before ++ (c, d) :: rest
          ∧ (invoke_all before m).2 = Some (tt, m1)
          ∧ (c d (callback_entry m1)).2 = None
          ∧ calls_at 0 0 (invoke_all calls m).1 = before.*2 ++ [d])).
Proof.
  split.
  { revert m. induction calls as [|[c d] rest IH]; intros m r.
    - by intros [= <-].
    - simpl. rewrite bind_result, flush_result.
      destruct (c d (callback_entry m)).2 as [[[] m2]|]; simpl; [|done].
      intros Hr. by rewrite (IH _ _ Hr). }
  intros Ht. revert m.
  assert (Hgen : ∀ m,
    (is_Some (invoke_all calls m).2 →
      calls_at 0 0 (invoke_all calls m).1 = calls.*2
      ∧ depth_after 0 (invoke_all calls m).1 = 0%nat)
    ∧ ((invoke_all calls m).2 = None →
        ∃ before c d rest m1,
          calls = before ++ (c, d) :: rest
          ∧ (invoke_all before m).2 = Some (tt, m1)
          ∧ (c d (callback_entry m1)).2 = None
          ∧ calls_at 0 0 (invoke_all calls m).1 = before.*2 ++ [d])).
  { induction Ht as [|[c d] rest Hc _ IH]; intros m.
    { split; [by intros _|]. by intros [=]. }
    simpl in Hc.
    destruct (Hc d (callback_entry m)) as [Hs Hd].
    pose proof (flush_calls_at_0 c d m Hs) as H0.
    pose proof (flush_result c d m) as Hr.
    assert (Hstep : (invoke_all ((c, d) :: rest) m).1
                    = (flush_registers_and_call c d m).1
                      ++ match (flush_registers_and_call c d m).2 with
                         | Some (_, m1) => (invoke_all rest m1).1
                         | None => []
                         end) by apply bind_trace.
    assert (Hres : (invoke_all ((c, d) :: rest) m).2
                   = match (flush_registers_and_call c d m).2 with
                     | Some (_, m1) => (invoke_all rest m1).2
                     | None => None
                     end) by apply bind_result.
    rewrite Hstep, Hres, calls_at_app, depth_after_app, H0.
    destruct (c d (callback_entry m)).2 as [[[] m2]|] eqn:Ec.
    - rewrite flush_depth, Hd in * by (rewrite ?Ec; done).
      rewrite Hr. simpl.
      destruct (IH (set_sp (sp m) m2)) as (Heq & Hnone).
      split.
      + intros Hsome. destruct (Heq Hsome) as [-> ->]. done.
      + intros Hn.
        destruct (Hnone Hn) as (before & c' & d' & rest' & m1 & -> & Hb & Hc' & ->).
        exists ((c, d) :: before), c', d', rest', m1.
        split; [done|]. split; [|done].
        simpl. by rewrite bind_result, Hr.
    - rewrite Hr. simpl. split; [by intros [? ?]|]. intros _.
      exists [], c, d, rest, m. by rewrite Ec. }
  intros m. destruct (Hgen m) as [Hyes Hno]. split; [|done].
  intros Hsome. by destruct (Hyes Hsome).
Qed.



End Compositions.

(** ** Runs and towers on the sample platform *)

Lemma invoke_all_in_order_witness :
  Forall (λ cd : callback_func * Z, tidy cd.1) [(bump, 0x7FFF0008); (idle, 7)]
  ∧ is_Some
      (@invoke_all amd64 [(bump, 0x7FFF0008); (idle, 7)] sample_machine).2
  ∧ calls_at 0 0
      (@invoke_all amd64 [(bump, 0x7FFF0008); (idle, 7)] sample_machine).1
    = [(bump, 0x7FFF0008); (idle, 7)].*2.
Proof.
  assert (Hb : tidy bump).
  { intros d m. unfold bump. destruct (mem m !! d); split; reflexivity. }
  assert (Hi : tidy idle).
  { intros d m. split; reflexivity. }
  assert (Ht : Forall (λ cd : callback_func * Z, tidy cd.1)
                 [(bump, 0x7FFF0008); (idle, 7)]).
  { apply Forall_cons_2; [exact Hb|].
    apply Forall_cons_2; [exact Hi|]. apply Forall_nil_2. }
  assert (Hs : is_Some
      (@invoke_all amd64 [(bump, 0x7FFF0008); (idle, 7)] sample_machine).2).
  { apply not_eq_None_Some. vm_compute. discriminate. }
  split; [exact Ht|]. split; [exact Hs|].
  pose proof (@invoke_all_in_order amd64 [(bump, 0x7FFF0008); (idle, 7)]
                sample_machine) as H.
  destruct H as (_ & H). destruct (H Ht) as (H1 & _). exact (H1 Hs).
Defined.


